(** * increment_build.py: the BUILD counter bump of src/version.h

    A shallow embedding of [scripts/increment_build.py].  The script reads
    the version header, looks for the declaration
    [static constexpr uint16_t BUILD = <digits>;] with a compiled regular
    expression, writes a backup of the text it read, and replaces the
    header by a copy in which the digits of the first match are those of
    the successor.

    Python values are modelled as the script sees them:
    - a [str] is a list of Unicode code points ([N]);
    - an [int] is an [N] (the matched digits are never signed);
    - the files are a finite map from path strings to nodes, holding the
      text that [read_text] returns and [write_text] stores (the codec and
      the line-ending handling of the runtime's text layer sit below
      this model);
    - [print] appends a line to the captured standard output;
    - an exception is a result of the [IO] monad. *)

From Stdlib Require Import NArith String Ascii DecimalN DecimalPos DecimalFacts.
From stdpp Require Import gmap strings list fin_maps.

(** ** Python strings *)

Abbreviation str := (list N).

(** The code points of a string literal of the source (all of them ASCII). *)
Definition u (s : string) : str :=
  map Ascii.N_of_ascii (String.list_ascii_of_string s).
Arguments u : simpl never.

(** [text[a:b]] for [0 <= a <= b]. *)
Definition slice (text : str) (a b : nat) : str :=
  take (b - a) (drop a text).

(** [needle in hay] *)
Definition contains (hay needle : str) : Prop :=
  exists a b, hay = a ++ needle ++ b.

(** ** The Unicode character database used by [re] and [int]

    The pattern is a [str] pattern compiled without [re.ASCII], so [\s] and
    [\d] are the Unicode categories. *)
Module Unicode.
Local Open Scope N_scope.

(** Code points for which [str.isspace] holds; this is what [\s] tests. *)
Definition whitespace : list N :=
  [ 0x9; 0xa; 0xb; 0xc; 0xd; 0x1c; 0x1d; 0x1e; 0x1f; 0x20; 0x85; 0xa0;
    0x1680; 0x2000; 0x2001; 0x2002; 0x2003; 0x2004; 0x2005; 0x2006;
    0x2007; 0x2008; 0x2009; 0x200a; 0x2028; 0x2029; 0x202f; 0x205f;
    0x3000 ].

(** The digit zero of every run of ten decimal digits (general category
    Nd, Unicode 14.0): a code point [c] is a decimal digit when
    [z <= c <= z + 9] for one of them, and its value is then [c - z]. *)
Definition decimal_zeros : list N :=
  [ 0x30; 0x660; 0x6f0; 0x7c0; 0x966; 0x9e6; 0xa66; 0xae6; 0xb66; 0xbe6;
    0xc66; 0xce6; 0xd66; 0xde6; 0xe50; 0xed0; 0xf20; 0x1040; 0x1090;
    0x17e0; 0x1810; 0x1946; 0x19d0; 0x1a80; 0x1a90; 0x1b50; 0x1bb0;
    0x1c40; 0x1c50; 0xa620; 0xa8d0; 0xa900; 0xa9d0; 0xa9f0; 0xaa50;
    0xabf0; 0xff10; 0x104a0; 0x10d30; 0x11066; 0x110f0; 0x11136;
    0x111d0; 0x112f0; 0x11450; 0x114d0; 0x11650; 0x116c0; 0x11730;
    0x118e0; 0x11950; 0x11c50; 0x11d50; 0x11da0; 0x16a60; 0x16ac0;
    0x16b50; 0x1d7ce; 0x1d7d8; 0x1d7e2; 0x1d7ec; 0x1d7f6; 0x1e140;
    0x1e2f0; 0x1e950; 0x1fbf0 ].

Definition isspace (c : N) : bool := existsb (N.eqb c) whitespace.

Definition in_decade (c z : N) : bool := (z <=? c) && (c <=? z + 9).

(** The decimal value of a code point, when it is a decimal digit. *)
Definition decimal (c : N) : option N :=
  match List.find (in_decade c) decimal_zeros with
  | Some z => Some (c - z)
  | None => None
  end.

Definition isdecimal (c : N) : bool :=
  match decimal c with Some _ => true | None => false end.

End Unicode.

(** ** [int(s)] and [str(n)] *)

Local Open Scope N_scope.

(** [int(s)] for a string of decimal digits: base 10, most significant digit
    first; [None] stands for [ValueError] (the empty string, or a character
    that is not a decimal digit). *)
Fixpoint int_digits (acc : N) (s : str) : option N :=
  match s with
  | [] => Some acc
  | c :: s' =>
      match Unicode.decimal c with
      | Some d => int_digits (10 * acc + d) s'
      | None => None
      end
  end.

Definition int (s : str) : option N :=
  match s with
  | [] => None
  | _ => int_digits 0 s
  end.

(** The ASCII digits of a decimal numeral, most significant first. *)
Fixpoint uint_codes (d : Decimal.uint) : str :=
  match d with
  | Decimal.Nil => []
  | Decimal.D0 d => 0x30 :: uint_codes d
  | Decimal.D1 d => 0x31 :: uint_codes d
  | Decimal.D2 d => 0x32 :: uint_codes d
  | Decimal.D3 d => 0x33 :: uint_codes d
  | Decimal.D4 d => 0x34 :: uint_codes d
  | Decimal.D5 d => 0x35 :: uint_codes d
  | Decimal.D6 d => 0x36 :: uint_codes d
  | Decimal.D7 d => 0x37 :: uint_codes d
  | Decimal.D8 d => 0x38 :: uint_codes d
  | Decimal.D9 d => 0x39 :: uint_codes d
  end.

(** [str(n)] for a non-negative [int]: its canonical decimal numeral. *)
Definition str_of_int (n : N) : str := uint_codes (N.to_uint n).

Local Close Scope N_scope.

(** ** The [re] engine, for the opcodes the BUILD pattern compiles to *)
Module Sre.

Inductive category := CATEGORY_SPACE | CATEGORY_DIGIT.

Definition in_category (cat : category) (c : N) : bool :=
  match cat with
  | CATEGORY_SPACE => Unicode.isspace c
  | CATEGORY_DIGIT => Unicode.isdecimal c
  end.

(** Compiled pattern code.  [MAX_REPEAT mn cat] is the greedy repetition
    of one character of the category, at least [mn] times and without an
    upper limit ([\s+], [\s*], [\d+]).  Group [g] lies between
    [MARK (2g-2)] and [MARK (2g-1)]. *)
Inductive op :=
| LITERAL (c : N)
| MAX_REPEAT (mn : nat) (cat : category)
| MARK (i : nat).

Definition code := list op.

Abbreviation marks := (list (option nat)).

Definition literal (s : string) : code := map LITERAL (u s).

(** How many characters of the category stand at the head of [s]. *)
Fixpoint count (cat : category) (s : str) : nat :=
  match s with
  | c :: s' => if in_category cat c then S (count cat s') else 0
  | [] => 0
  end.

(** Greedy choice with backtracking: try [k], then [k - 1], ..., down to
    [mn], and take the first that lets the rest of the pattern match. *)
Fixpoint backtrack {R} (try : nat -> option R) (mn k : nat) : option R :=
  match try k with
  | Some r => Some r
  | None =>
      match k with
      | O => None
      | S k' => if decide (mn <= k') then backtrack try mn k' else None
      end
  end.

(** Match the code at position [pos], [s] being the text from [pos] on.
    The result is the end position and the marks. *)
Fixpoint sre_match (p : code) (s : str) (pos : nat) (mk : marks)
  : option (nat * marks) :=
  match p with
  | [] => Some (pos, mk)
  | LITERAL c :: p' =>
      match s with
      | c' :: s' => if N.eqb c' c then sre_match p' s' (S pos) mk else None
      | [] => None
      end
  | MARK i :: p' => sre_match p' s pos (<[i := Some pos]> mk)
  | MAX_REPEAT mn cat :: p' =>
      let n := count cat s in
      if decide (mn <= n)
      then backtrack (fun k => sre_match p' (drop k s) (pos + k) mk) mn n
      else None
  end.

(** A compiled pattern: its code and its number of groups. *)
Record Pattern := { pat_code : code; pat_groups : nat }.

(** A match object: the string searched, the span of the whole match and
    the marks of the groups. *)
Record Match := {
  m_string : str;
  m_start : nat;
  m_end : nat;
  m_marks : marks;
}.

(** [m.group(g)] for a group that took part in the match; an unset group
    gives the empty string here (no group of the pattern is optional). *)
Definition group (m : Match) (g : nat) : str :=
  match g with
  | O => slice (m_string m) (m_start m) (m_end m)
  | S g' =>
      match m_marks m !! (2 * g'), m_marks m !! (2 * g' + 1) with
      | Some (Some a), Some (Some b) => slice (m_string m) a b
      | _, _ => []
      end
  end.

(** Scan for the first position at which the code matches. *)
Fixpoint search_from (p : Pattern) (s : str) (pos : nat)
  : option (nat * nat * marks) :=
  match sre_match (pat_code p) s pos (replicate (2 * pat_groups p) None) with
  | Some (e, mk) => Some (pos, e, mk)
  | None =>
      match s with
      | [] => None
      | _ :: s' => search_from p s' (S pos)
      end
  end.

(** [pattern.search(text)] *)
Definition search (p : Pattern) (text : str) : option Match :=
  match search_from p text 0 with
  | Some (b, e, mk) =>
      Some {| m_string := text; m_start := b; m_end := e; m_marks := mk |}
  | None => None
  end.

(** [pattern.sub(repl, text, count)] for a callable [repl] and a limit
    [count >= 1]: the matches are taken from left to right, each search
    resuming where the previous match ended, and at most [count] of them
    are replaced.  (The code has no anchor and no look-behind, so a
    search resumed at a position sees what a search of the remaining text
    sees.  Python's unlimited [count=0] is not an argument the script
    passes; here a limit of zero replaces nothing.) *)
Fixpoint sub (p : Pattern) (repl : Match -> str) (text : str) (count : nat)
  : str :=
  match count with
  | O => text
  | S count' =>
      match search p text with
      | None => text
      | Some m =>
          take (m_start m) text ++ repl m
            ++ sub p repl (drop (m_end m) text) count'
      end
  end.

End Sre.

(** ** [pathlib] *)
Module Pathlib.

(** A relative POSIX path, as its parts. *)
Record Path := { parts : list string }.

Definition sep : string := "/".

(** [str(path)] *)
Definition to_str (p : Path) : string := String.concat sep (parts p).

(** [path.name] *)
Definition name (p : Path) : string := List.last (parts p) "".

(** [path.with_name(n)] *)
Definition with_name (p : Path) (n : string) : Path :=
  {| parts := List.removelast (parts p) ++ [n] |}.

(** Position of the last ["."] of a string, if it has one. *)
Fixpoint rfind_dot (s : string) : option nat :=
  match s with
  | EmptyString => None
  | String c s' =>
      match rfind_dot s' with
      | Some i => Some (S i)
      | None => if Ascii.eqb c "."%char then Some 0 else None
      end
  end.

(** [path.suffix]: the name from its last dot on, unless that dot is the
    first or the last character of the name. *)
Definition suffix (p : Path) : string :=
  let n := name p in
  match rfind_dot n with
  | Some i =>
      if decide (0 < i < String.length n - 1)
      then String.substring i (String.length n - i) n
      else ""
  | None => ""
  end.

(** [path.with_suffix(s)]: the suffix of the name is replaced by [s], or
    [s] is appended when the name has none. *)
Definition with_suffix (p : Path) (s : string) : Path :=
  let n := name p in
  let old := suffix p in
  with_name p
    (String.substring 0 (String.length n - String.length old) n ++ s)%string.

End Pathlib.

(** ** Files, standard output and exceptions *)

(** What a path names: a regular file with its text, or a directory. *)
Inductive node :=
| File (text : str)
| Dir.

Record world := {
  files : gmap string node;
  stdout : list str;
}.

Inductive exception :=
| FileNotFoundError (path : string)
| IsADirectoryError (path : string)
| ValueError.

Inductive result (A : Type) :=
| Return (a : A)
| Raise (e : exception).
Arguments Return {A} a.
Arguments Raise {A} e.

(** A computation on the world that returns or raises.  The embedding has
    no primitive that ends the process. *)
Definition IO (A : Type) : Type := world -> result A * world.


Definition raise {A} (e : exception) : IO A := fun w => (Raise e, w).

Definition bind {A B} (m : IO A) (k : A -> IO B) : IO B :=
  fun w =>
    match m w with
    | (Return a, w') => k a w'
    | (Raise e, w') => (Raise e, w')
    end.

Notation "x <- m ;; k" := (bind m (fun x => k))
  (at level 100, m at next level, right associativity).
Notation "m ;;; k" := (bind m (fun _ => k))
  (at level 100, right associativity).

(** [path.exists()] *)
Definition path_exists (p : Pathlib.Path) : IO bool :=
  fun w =>
    (Return (bool_decide (is_Some (files w !! Pathlib.to_str p))), w).

(** [path.read_text(encoding="utf-8")] *)
Definition read_text (p : Pathlib.Path) : IO str :=
  fun w =>
    match files w !! Pathlib.to_str p with
    | Some (File text) => (Return text, w)
    | Some Dir => (Raise (IsADirectoryError (Pathlib.to_str p)), w)
    | None => (Raise (FileNotFoundError (Pathlib.to_str p)), w)
    end.

(** [path.write_text(text, encoding="utf-8")]: the file is created or
    truncated.  (The paths written by the script are siblings of a file
    that exists, so their directory exists.) *)
Definition write_text (p : Pathlib.Path) (text : str) : IO unit :=
  fun w =>
    match files w !! Pathlib.to_str p with
    | Some Dir => (Raise (IsADirectoryError (Pathlib.to_str p)), w)
    | _ =>
        (Return tt,
         {| files := <[Pathlib.to_str p := File text]> (files w);
            stdout := stdout w |})
    end.

(** [src.replace(dst)]: rename, replacing a file that is there. *)
Definition replace (src dst : Pathlib.Path) : IO unit :=
  fun w =>
    match files w !! Pathlib.to_str src with
    | None => (Raise (FileNotFoundError (Pathlib.to_str src)), w)
    | Some n =>
        match files w !! Pathlib.to_str dst with
        | Some Dir => (Raise (IsADirectoryError (Pathlib.to_str dst)), w)
        | _ =>
            (Return tt,
             {| files := <[Pathlib.to_str dst := n]>
                           (delete (Pathlib.to_str src) (files w));
                stdout := stdout w |})
        end
    end.

(** [print(line)] *)
Definition print (line : str) : IO unit :=
  fun w =>
    (Return tt, {| files := files w; stdout := stdout w ++ [line] |}).

(** ** The script *)

Definition VERSION_H : Pathlib.Path := {| Pathlib.parts := ["src"; "version.h"] |}.
Definition BACKUP_SUFFIX : string := ".bak".

(** The pattern compiled by [re.compile] with the flag [re.M].  Its source,
    spaced out here, is
    [( static \s+ constexpr \s+ uint16_t \s+ BUILD \s* = \s* ) ( \d+ ) ( \s* ; )]:
    three groups, the declaration up to the digits, the digits, and the
    semicolon with the white space before it.  It has no line anchor, so
    [re.M] changes nothing. *)
Definition pattern : Sre.Pattern :=
  {| Sre.pat_code :=
       [Sre.MARK 0]
         ++ Sre.literal "static" ++ [Sre.MAX_REPEAT 1 Sre.CATEGORY_SPACE]
         ++ Sre.literal "constexpr" ++ [Sre.MAX_REPEAT 1 Sre.CATEGORY_SPACE]
         ++ Sre.literal "uint16_t" ++ [Sre.MAX_REPEAT 1 Sre.CATEGORY_SPACE]
         ++ Sre.literal "BUILD" ++ [Sre.MAX_REPEAT 0 Sre.CATEGORY_SPACE]
         ++ Sre.literal "=" ++ [Sre.MAX_REPEAT 0 Sre.CATEGORY_SPACE]
         ++ [Sre.MARK 1]
         ++ [Sre.MARK 2] ++ [Sre.MAX_REPEAT 1 Sre.CATEGORY_DIGIT]
         ++ [Sre.MARK 3]
         ++ [Sre.MARK 4] ++ [Sre.MAX_REPEAT 0 Sre.CATEGORY_SPACE]
         ++ Sre.literal ";" ++ [Sre.MARK 5];
     Sre.pat_groups := 3 |}.

Definition missing_file_warning : str :=
  u "[increment_build] warning: " ++ u (Pathlib.to_str VERSION_H)
    ++ u " not found, skipping build increment".

Definition missing_pattern_warning : str :=
  u "[increment_build] warning: BUILD pattern not found in "
    ++ u (Pathlib.to_str VERSION_H) ++ u ", skipping".

Definition updated_message (old new : N) : str :=
  u "[increment_build] updated BUILD: " ++ str_of_int old ++ u " -> "
    ++ str_of_int new ++ u " (" ++ u (Pathlib.to_str VERSION_H) ++ u ")".

Definition increment_build : IO unit :=
  present <- path_exists VERSION_H;;
  if negb present then print missing_file_warning
  else
    text <- read_text VERSION_H;;
    match Sre.search pattern text with
    | None => print missing_pattern_warning
    | Some m =>
        match int (Sre.group m 2) with
        | None => raise ValueError
        | Some old =>
            let new := (old + 1)%N in
            let new_text :=
              Sre.sub pattern
                (fun m => Sre.group m 1 ++ str_of_int new ++ Sre.group m 3)
                text 1 in
            let bak :=
              Pathlib.with_name VERSION_H
                (Pathlib.name VERSION_H ++ BACKUP_SUFFIX)%string in
            write_text bak text;;;
            let tmp :=
              Pathlib.with_suffix VERSION_H
                (Pathlib.suffix VERSION_H ++ ".tmp")%string in
            write_text tmp new_text;;;
            replace tmp VERSION_H;;;
            print (updated_message old new)
        end
    end.

(** ** What the pattern means

    The declarative reading of compiled code, against which the
    backtracking matcher is verified: [den p pos mk w mk'] says that the
    word [w], standing at position [pos], is matched by [p], and that the
    marks [mk] become [mk']. *)
Inductive den : Sre.code -> nat -> Sre.marks -> str -> Sre.marks -> Prop :=
| den_nil pos mk : den [] pos mk [] mk
| den_literal c p pos mk w mk' :
    den p (S pos) mk w mk' ->
    den (Sre.LITERAL c :: p) pos mk (c :: w) mk'
| den_repeat mn cat p pos mk r w mk' :
    Forall (fun c => Sre.in_category cat c = true) r ->
    mn <= length r ->
    den p (pos + length r) mk w mk' ->
    den (Sre.MAX_REPEAT mn cat :: p) pos mk (r ++ w) mk'
| den_mark i p pos mk w mk' :
    den p pos (<[i := Some pos]> mk) w mk' ->
    den (Sre.MARK i :: p) pos mk w mk'.

(** The code [p] cannot start with a character of the category. *)
Fixpoint guard (cat : Sre.category) (p : Sre.code) : Prop :=
  match p with
  | [] => False
  | Sre.LITERAL c :: _ => Sre.in_category cat c = false
  | Sre.MARK _ :: p' => guard cat p'
  | Sre.MAX_REPEAT mn cat' :: p' =>
      (forall c, Sre.in_category cat c = true -> Sre.in_category cat' c = false)
      /\ (mn = 0 -> guard cat p')
  end.

(** Every repetition is followed by code that cannot start with a character
    of its category: a repetition can end in one place only. *)
Fixpoint unambiguous (p : Sre.code) : Prop :=
  match p with
  | [] => True
  | Sre.MAX_REPEAT _ cat :: p' => guard cat p' /\ unambiguous p'
  | _ :: p' => unambiguous p'
  end.

(** *** The BUILD declaration, as the specification words it *)

Definition whitespace (w : str) : Prop :=
  Forall (fun c => Unicode.isspace c = true) w.

Definition decimal_digits (w : str) : Prop :=
  Forall (fun c => Unicode.isdecimal c = true) w.

(** [build_decl g1 g2 g3]: [g1] is the declaration prefix up to the digits
    (the tokens [static], [constexpr], [uint16_t], [BUILD] separated by
    white space, then [=] with optional white space around it), [g2] the
    digits, and [g3] the terminating [;] with optional white space before
    it. *)
Inductive build_decl : str -> str -> str -> Prop :=
| build_decl_intro w1 w2 w3 w4 w5 ds w6 :
    whitespace w1 -> w1 <> [] ->
    whitespace w2 -> w2 <> [] ->
    whitespace w3 -> w3 <> [] ->
    whitespace w4 -> whitespace w5 ->
    decimal_digits ds -> ds <> [] ->
    whitespace w6 ->
    build_decl
      (u "static" ++ w1 ++ u "constexpr" ++ w2 ++ u "uint16_t" ++ w3
         ++ u "BUILD" ++ w4 ++ u "=" ++ w5)
      ds
      (w6 ++ u ";").

(** The text has a BUILD declaration after [pre] and before [post]. *)
Definition occurs (text pre g1 g2 g3 post : str) : Prop :=
  text = pre ++ g1 ++ g2 ++ g3 ++ post /\ build_decl g1 g2 g3.

(** It is the first one in document order. *)
Definition first_occurrence (text pre g1 g2 g3 post : str) : Prop :=
  occurs text pre g1 g2 g3 post /\
  forall pre' g1' g2' g3' post',
    occurs text pre' g1' g2' g3' post' -> length pre <= length pre'.

Definition no_occurrence (text : str) : Prop :=
  forall pre g1 g2 g3 post, ~ occurs text pre g1 g2 g3 post.

(** The paths the script works on. *)
Definition version_path : string := "src/version.h".
Definition backup_path : string := "src/version.h.bak".
Definition temp_path : string := "src/version.h.tmp".

(** The marks left by a match of the pattern at [pos] whose groups are
    [g1], [g2] and [g3]. *)
Definition group_marks (pos : nat) (g1 g2 g3 : str) : Sre.marks :=
  [ Some pos; Some (pos + length g1);
    Some (pos + length g1); Some (pos + length g1 + length g2);
    Some (pos + length g1 + length g2);
    Some (pos + length g1 + length g2 + length g3) ].

(** The match object of a declaration found after [pre]. *)
Definition match_of (text pre g1 g2 g3 : str) : Sre.Match :=
  {| Sre.m_string := text;
     Sre.m_start := length pre;
     Sre.m_end := length pre + length g1 + length g2 + length g3;
     Sre.m_marks := group_marks (length pre) g1 g2 g3 |}.

(** The world after a run that found the pattern. *)
Definition updated (w : world) (text new_text : str) (old : N) : world :=
  {| files :=
       <[version_path := File new_text]>
         (delete temp_path
            (<[temp_path := File new_text]>
               (<[backup_path := File text]> (files w))));
     stdout := stdout w ++ [updated_message old (old + 1)] |}.

(** *** The pieces of a declaration *)

(** The assignment itself: [BUILD], [=], the digits and the [;], with
    optional white space in between. *)
Definition build_assignment (a : str) : Prop :=
  exists w4 w5 ds w6,
    a = u "BUILD" ++ w4 ++ u "=" ++ w5 ++ ds ++ w6 ++ u ";" /\
    whitespace w4 /\ whitespace w5 /\
    decimal_digits ds /\ ds <> [] /\ whitespace w6.

(** The recognized declaration prefix: the tokens [static], [constexpr] and
    [uint16_t] in this order, each followed by at least one white space
    character. *)
Definition recognized_prefix (p : str) : Prop :=
  exists w1 w2 w3,
    p = u "static" ++ w1 ++ u "constexpr" ++ w2 ++ u "uint16_t" ++ w3 /\
    whitespace w1 /\ w1 <> [] /\
    whitespace w2 /\ w2 <> [] /\
    whitespace w3 /\ w3 <> [].

(** No BUILD assignment of the text stands right after the recognized
    prefix. *)
Definition no_recognized_assignment (text : str) : Prop :=
  forall before a after,
    text = before ++ a ++ after -> build_assignment a ->
    ~ exists pre p, before = pre ++ p /\ recognized_prefix p.

(** *** Worlds to run the script in *)

(** Only the version file, with the given text, and nothing printed yet. *)
Definition world_of (text : str) : world :=
  {| files := {[ version_path := File text ]}; stdout := [] |}.


Definition LF : N := 10%N.

(** The header of the specification's example, and its pieces. *)
Definition decl_prefix : str := u "static constexpr uint16_t BUILD = ".
Definition header (digits : string) : str :=
  decl_prefix ++ u digits ++ u ";" ++ [LF].

(** *** Successive builds *)


(** The version file with the given text, and a node at one more path. *)
Definition world_with_node (text : str) (path : string) (n : node) : world :=
  {| files := <[path := n]> {[ version_path := File text ]}; stdout := [] |}.

(** What a run can do to a world: the six ways through the script. *)
Inductive run_outcome (w : world) : result unit -> world -> Prop :=
| run_missing_file :
    files w !! version_path = None ->
    run_outcome w (Return tt)
      {| files := files w; stdout := stdout w ++ [missing_file_warning] |}
| run_version_is_directory :
    files w !! version_path = Some Dir ->
    run_outcome w (Raise (IsADirectoryError version_path)) w
| run_missing_pattern text :
    files w !! version_path = Some (File text) ->
    no_occurrence text ->
    run_outcome w (Return tt)
      {| files := files w; stdout := stdout w ++ [missing_pattern_warning] |}
| run_backup_is_directory text pre g1 g2 g3 post :
    files w !! version_path = Some (File text) ->
    first_occurrence text pre g1 g2 g3 post ->
    files w !! backup_path = Some Dir ->
    run_outcome w (Raise (IsADirectoryError backup_path)) w
| run_temp_is_directory text pre g1 g2 g3 post :
    files w !! version_path = Some (File text) ->
    first_occurrence text pre g1 g2 g3 post ->
    files w !! backup_path <> Some Dir ->
    files w !! temp_path = Some Dir ->
    run_outcome w (Raise (IsADirectoryError temp_path))
      {| files := <[backup_path := File text]> (files w); stdout := stdout w |}
| run_updated text pre g1 g2 g3 post n :
    files w !! version_path = Some (File text) ->
    first_occurrence text pre g1 g2 g3 post ->
    int g2 = Some n ->
    files w !! backup_path <> Some Dir ->
    files w !! temp_path <> Some Dir ->
    run_outcome w (Return tt)
      (updated w text (pre ++ g1 ++ str_of_int (n + 1) ++ g3 ++ post) n).

(** * Properties *)

(** ** Characters *)

Lemma isspace_elem c : Unicode.isspace c = true -> c ∈ Unicode.whitespace.
Proof.
  unfold Unicode.isspace. rewrite existsb_exists.
  intros (x & Hx & Heq). apply N.eqb_eq in Heq. subst x.
  by apply list_elem_of_In.
Qed.

(** No character is both white space and a decimal digit. *)
Lemma space_not_decimal c :
  Unicode.isspace c = true -> Unicode.isdecimal c = false.
Proof.
  intros H%isspace_elem%list_elem_of_In.
  assert (forallb (fun c => negb (Unicode.isdecimal c)) Unicode.whitespace = true)
    as Hall by (vm_compute; reflexivity).
  rewrite forallb_forall in Hall. apply Hall in H.
  by destruct (Unicode.isdecimal c).
Qed.

Lemma decimal_not_space c :
  Unicode.isdecimal c = true -> Unicode.isspace c = false.
Proof.
  intros H. destruct (Unicode.isspace c) eqn:E; [|done].
  apply space_not_decimal in E. congruence.
Qed.

Lemma in_category_disjoint c :
  Sre.in_category Sre.CATEGORY_SPACE c = true ->
  Sre.in_category Sre.CATEGORY_DIGIT c = false.
Proof. apply space_not_decimal. Qed.

(** ** Decimal numerals *)












(** ** The matcher against the declarative reading *)

Section Matcher.
Import Sre.

Implicit Types (p : code) (s w : str) (mk : marks) (cat : category).

Let is_in cat := fun c => in_category cat c = true.

Lemma count_le_length cat s : count cat s <= length s.
Proof. induction s as [|c s IH]; simpl; [lia|]. destruct in_category; simpl; lia. Qed.

Lemma count_take cat s k : k <= count cat s -> Forall (is_in cat) (take k s).
Proof.
  revert k. induction s as [|c s IH]; intros k Hk; simpl in *.
  - destruct k; constructor.
  - destruct k; [constructor|]. simpl.
    destruct (in_category cat c) eqn:E; [|lia].
    constructor; [done|]. apply IH. lia.
Qed.

Lemma count_app cat r s : Forall (is_in cat) r -> length r <= count cat (r ++ s).
Proof.
  induction 1 as [|c r Hc _ IH]; simpl; [lia|].
  unfold is_in in Hc. rewrite Hc. lia.
Qed.

Lemma backtrack_Some {R} (try : nat -> option R) mn n r :
  mn <= n -> backtrack try mn n = Some r ->
  exists k, mn <= k <= n /\ try k = Some r.
Proof.
  induction n as [|n IH]; simpl; intros Hmn H.
  - destruct (try 0) eqn:E; [|done]. exists 0. split; [lia|congruence].
  - destruct (try (S n)) eqn:E.
    + exists (S n). split; [lia|congruence].
    + destruct (decide (mn <= n)); [|done].
      destruct (IH l H) as (k & Hk & Hr). exists k. split; [lia|done].
Qed.

Lemma backtrack_None {R} (try : nat -> option R) mn n :
  backtrack try mn n = None -> forall k, mn <= k <= n -> try k = None.
Proof.
  induction n as [|n IH]; simpl; intros H k Hk.
  - destruct (try 0) eqn:E; [done|]. by replace k with 0 by lia.
  - destruct (try (S n)) eqn:E; [done|].
    destruct (decide (k = S n)) as [->|]; [done|].
    destruct (decide (mn <= n)); [|lia]. apply IH; [done|lia].
Qed.

(** Whatever the matcher returns is a match in the declarative sense. *)
Lemma sre_match_sound p : forall s pos mk e mk',
  sre_match p s pos mk = Some (e, mk') ->
  exists w rest, s = w ++ rest /\ e = pos + length w /\ den p pos mk w mk'.
Proof.
  induction p as [|o p IH]; intros s pos mk e mk' H; simpl in H.
  - injection H as <- <-. exists [], s. repeat split; [simpl; lia|constructor].
  - destruct o as [c|mn cat|i].
    + destruct s as [|c' s]; [done|].
      destruct (N.eqb_spec c' c) as [->|]; [|done].
      apply IH in H as (w & rest & -> & -> & Hd).
      exists (c :: w), rest. repeat split; [simpl; lia|by constructor].
    + destruct (decide (mn <= count cat s)) as [Hmn|]; [|done].
      apply backtrack_Some in H as (k & Hk & H); [|done].
      apply IH in H as (w & rest & Hs & -> & Hd).
      assert (length (take k s) = k) as Hlen.
      { rewrite length_take. pose proof (count_le_length cat s). lia. }
      exists (take k s ++ w), rest. repeat split.
      * rewrite <- (take_drop k s) at 1. rewrite Hs. by rewrite (assoc_L (++)).
      * rewrite length_app, Hlen. lia.
      * constructor; [apply count_take; lia|lia|by rewrite Hlen].
    + apply IH in H as (w & rest & -> & -> & Hd).
      exists w, rest. repeat split. by constructor.
Qed.

(** Where a declarative match stands, the matcher finds one. *)
Lemma sre_match_complete p pos mk w mk' rest :
  den p pos mk w mk' -> is_Some (sre_match p (w ++ rest) pos mk).
Proof.
  induction 1 as [pos mk|c p pos mk w mk' _ IH|mn cat p pos mk r w mk' Hr Hmn _ IH
                 |i p pos mk w mk' _ IH]; simpl.
  - by eexists.
  - by rewrite N.eqb_refl.
  - rewrite <- (assoc_L (++)).
    pose proof (count_app cat r (w ++ rest) Hr) as Hc.
    destruct (decide (mn <= count cat (r ++ w ++ rest))); [|lia].
    match goal with |- is_Some ?x => destruct x eqn:E end; [by eexists|].
    eapply backtrack_None with (k := length r) in E; [|lia].
    rewrite drop_app_length in E. rewrite E in IH. by destruct IH.
  - done.
Qed.

(** Code that is guarded against a category matches no word that starts
    in it (and no empty word). *)
Lemma guard_head cat p pos mk w mk' :
  guard cat p -> den p pos mk w mk' ->
  exists h t, w = h :: t /\ in_category cat h = false.
Proof.
  intros Hg Hd. induction Hd as [pos mk|c p pos mk w mk' _ _
      |mn cat' p pos mk r w mk' Hr Hmn _ IH|i p pos mk w mk' _ IH]; simpl in Hg.
  - done.
  - by exists c, w.
  - destruct Hg as [Hdis Hg]. destruct r as [|h r].
    + simpl in Hmn. apply IH, Hg. lia.
    + exists h, (r ++ w). split; [done|].
      apply Forall_cons in Hr as [Hh _].
      destruct (in_category cat h) eqn:E; [|done].
      apply Hdis in E. congruence.
  - by apply IH.
Qed.

Lemma run_unique cat (r r' x x' : str) :
  Forall (is_in cat) r -> Forall (is_in cat) r' ->
  (exists h t, x = h :: t /\ in_category cat h = false) ->
  (exists h t, x' = h :: t /\ in_category cat h = false) ->
  r ++ x = r' ++ x' -> r = r' /\ x = x'.
Proof.
  intros Hr. revert r'.
  induction Hr as [|c r Hc Hr IH]; intros r' Hr' Hx Hx' Heq.
  - destruct Hr' as [|c' r' Hc' Hr']; [done|].
    destruct Hx as (h & t & -> & Hh). simpl in Heq.
    injection Heq as -> _. unfold is_in in Hc'. congruence.
  - destruct Hr' as [|c' r' Hc' Hr'].
    + destruct Hx' as (h & t & -> & Hh). simpl in Heq.
      injection Heq as -> _. unfold is_in in Hc. congruence.
    + simpl in Heq. injection Heq as -> Heq.
      destruct (IH r' Hr' Hx Hx' Heq) as [-> ->]. done.
Qed.

(** For unambiguous code the match at a position is unique. *)
Lemma den_unique p pos mk w1 mk1 :
  unambiguous p -> den p pos mk w1 mk1 ->
  forall w2 mk2 r1 r2,
    den p pos mk w2 mk2 -> w1 ++ r1 = w2 ++ r2 -> w1 = w2 /\ mk1 = mk2.
Proof.
  intros Hu Hd. induction Hd as [pos mk|c p pos mk w mk' _ IH
      |mn cat p pos mk r w mk' Hr Hmn Hd IH|i p pos mk w mk' _ IH];
    intros w2 mk2 r1 r2 Hd2 Heq; inversion Hd2; subst; simpl in Hu.
  - done.
  - simpl in Heq. injection Heq as Heq.
    destruct (IH Hu _ _ _ _ ltac:(eassumption) Heq) as [-> ->]. done.
  - destruct Hu as [Hg Hu]. rewrite <- !(assoc_L (++)) in Heq.
    match goal with
    | H1 : Forall _ ?r', H2 : den p (pos + length ?r') mk ?w' mk2 |- _ =>
        rename r' into r0; rename w' into w0; rename H1 into Hr0; rename H2 into Hd0
    end.
    assert (r = r0 /\ w ++ r1 = w0 ++ r2) as [<- Heq'].
    { apply (run_unique cat); try done.
      - destruct (guard_head _ _ _ _ _ _ Hg Hd) as (h & t & -> & Hh). by exists h, (t ++ r1).
      - destruct (guard_head _ _ _ _ _ _ Hg Hd0) as (h & t & -> & Hh). by exists h, (t ++ r2). }
    destruct (IH Hu _ _ _ _ Hd0 Heq') as [-> ->]. done.
  - eapply IH; eauto.
Qed.

(** On unambiguous code the matcher returns exactly the declarative
    match. *)
Theorem sre_match_den p pos mk w mk' rest :
  unambiguous p -> den p pos mk w mk' ->
  sre_match p (w ++ rest) pos mk = Some (pos + length w, mk').
Proof.
  intros Hu Hd.
  destruct (sre_match_complete p pos mk w mk' rest Hd) as [[e mk2] H].
  rewrite H. apply sre_match_sound in H as (w2 & rest2 & Heq & -> & Hd2).
  destruct (den_unique p pos mk w mk' Hu Hd w2 mk2 rest rest2 Hd2 Heq) as [<- <-].
  done.
Qed.

End Matcher.

(** ** The BUILD pattern *)

Section Pattern.
Import Sre.

Lemma den_nil_inv pos mk w mk' : den [] pos mk w mk' -> w = [] /\ mk' = mk.
Proof. by inversion 1. Qed.

Lemma den_mark_inv i p pos mk w mk' :
  den (MARK i :: p) pos mk w mk' -> den p pos (<[i := Some pos]> mk) w mk'.
Proof. by inversion 1. Qed.

Lemma den_repeat_inv mn cat p pos mk w mk' :
  den (MAX_REPEAT mn cat :: p) pos mk w mk' ->
  exists r w', w = r ++ w' /\ Forall (fun c => in_category cat c = true) r
    /\ mn <= length r /\ den p (pos + length r) mk w' mk'.
Proof. inversion 1; subst. eauto 10. Qed.

Lemma den_lits_inv (s : str) p pos mk w mk' :
  den (map LITERAL s ++ p) pos mk w mk' ->
  exists w', w = s ++ w' /\ den p (pos + length s) mk w' mk'.
Proof.
  revert pos w. induction s as [|c s IH]; intros pos w H; simpl in *.
  - exists w. by rewrite Nat.add_0_r.
  - inversion H; subst.
    match goal with H' : den _ (S pos) _ _ _ |- _ => apply IH in H' as (w' & -> & Hd) end.
    exists w'. split; [done|]. by replace (pos + S (length s)) with (S pos + length s) by lia.
Qed.

Lemma den_lits_intro (s : str) p pos mk w mk' :
  den p (pos + length s) mk w mk' -> den (map LITERAL s ++ p) pos mk (s ++ w) mk'.
Proof.
  revert pos. induction s as [|c s IH]; intros pos H; simpl in *.
  - by rewrite Nat.add_0_r in H.
  - constructor. apply IH. by replace (S pos + length s) with (pos + S (length s)) by lia.
Qed.

(** Two lists of marks are equal when their positions are. *)
Ltac marks_eq :=
  unfold group_marks; rewrite ?length_app; simpl;
  repeat match goal with
    | |- _ :: _ = _ :: _ => f_equal
    | |- Some _ = Some _ => f_equal
    end; lia.

Lemma length_pos_not_nil (w : str) : 1 <= length w -> w <> [].
Proof. by destruct w; simpl; [lia|]. Qed.

Lemma den_pattern_decl pos w mk' :
  den (pat_code pattern) pos (replicate (2 * pat_groups pattern) None) w mk' ->
  exists g1 g2 g3,
    w = g1 ++ g2 ++ g3 /\ build_decl g1 g2 g3 /\ mk' = group_marks pos g1 g2 g3.
Proof.
  cbn [pat_code pat_groups pattern app]. unfold literal. intros H.
  repeat first
    [ apply den_mark_inv in H
    | apply den_lits_inv in H as (? & -> & H)
    | apply den_repeat_inv in H as (? & ? & -> & ? & ? & H) ].
  apply den_nil_inv in H as [-> ->].
  match goal with
  | |- context [u "static" ++ ?w1 ++ u "constexpr" ++ ?w2 ++ u "uint16_t" ++ ?w3
                  ++ u "BUILD" ++ ?w4 ++ u "=" ++ ?w5 ++ ?ds ++ ?w6 ++ u ";" ++ []] =>
      exists (u "static" ++ w1 ++ u "constexpr" ++ w2 ++ u "uint16_t" ++ w3
                ++ u "BUILD" ++ w4 ++ u "=" ++ w5), ds, (w6 ++ u ";")
  end.
  split; [by rewrite app_nil_r, <- !(assoc_L (++))|].
  split; [constructor; auto using length_pos_not_nil|].
  marks_eq.
Qed.

Lemma den_decl_pattern pos g1 g2 g3 :
  build_decl g1 g2 g3 ->
  den (pat_code pattern) pos (replicate (2 * pat_groups pattern) None)
    (g1 ++ g2 ++ g3) (group_marks pos g1 g2 g3).
Proof.
  intros [w1 w2 w3 w4 w5 ds w6 H1 N1 H2 N2 H3 N3 H4 H5 Hd Nd H6].
  assert (forall w : str, w <> [] -> 1 <= length w) as Hlen
    by (intros [|??] ?; simpl; [done|lia]).
  cbn [pat_code pat_groups pattern app]. unfold literal.
  rewrite <- !(assoc_L (++)). rewrite <- (app_nil_r (u ";")).
  match goal with
  | |- den ?c ?p ?m ?w ?m' =>
      cut (exists m0, den c p m w m0 /\ m0 = m'); [by intros (? & ? & ->)|]
  end.
  eexists. split.
  - repeat first
      [ apply den_mark
      | apply den_lits_intro
      | apply den_repeat; [eassumption|auto using Nat.le_0_l|]
      | apply den_nil ].
  - marks_eq.
Qed.

Lemma pattern_unambiguous : unambiguous (pat_code pattern).
Proof.
  cbn [pat_code pattern app]. unfold literal.
  assert (forall c, in_category CATEGORY_DIGIT c = true ->
                    in_category CATEGORY_SPACE c = false) as Hds
    by apply decimal_not_space.
  cbn -[in_category].
  repeat split; try (vm_compute; reflexivity); try done;
    auto using in_category_disjoint.
Qed.

End Pattern.

(** ** Searching *)

Section Search.
Import Sre.

Implicit Types (p : Pattern) (s : str).

Lemma search_from_found p pre : forall s pos rest e mk,
  s = pre ++ rest ->
  sre_match (pat_code p) rest (pos + length pre)
    (replicate (2 * pat_groups p) None) = Some (e, mk) ->
  (forall pre1 rest1, s = pre1 ++ rest1 -> length pre1 < length pre ->
     sre_match (pat_code p) rest1 (pos + length pre1)
       (replicate (2 * pat_groups p) None) = None) ->
  search_from p s pos = Some (pos + length pre, e, mk).
Proof.
  induction pre as [|c pre IH]; intros s pos rest e mk -> Hm Hfail.
  - simpl in *. rewrite Nat.add_0_r in *.
    destruct rest; simpl; by rewrite Hm.
  - pose proof (Hfail [] (c :: pre ++ rest) eq_refl ltac:(simpl; lia)) as H0.
    simpl in H0. rewrite Nat.add_0_r in H0. simpl. rewrite H0.
    simpl in Hm.
    replace (pos + S (length pre)) with (S pos + length pre) in * by lia.
    apply (IH _ _ rest); [done|exact Hm|].
    intros pre1 rest1 Heq Hlt.
    replace (S pos + length pre1) with (pos + length (c :: pre1)) by (simpl; lia).
    apply Hfail; [simpl; congruence|simpl; lia].
Qed.

Lemma search_from_Some p : forall s pos b e mk,
  search_from p s pos = Some (b, e, mk) ->
  exists pre rest,
    s = pre ++ rest /\ b = pos + length pre /\
    sre_match (pat_code p) rest b (replicate (2 * pat_groups p) None) = Some (e, mk) /\
    forall pre1 rest1, s = pre1 ++ rest1 -> length pre1 < length pre ->
      sre_match (pat_code p) rest1 (pos + length pre1)
        (replicate (2 * pat_groups p) None) = None.
Proof.
  induction s as [|c s IH]; intros pos b e mk H; simpl in H.
  - destruct sre_match as [[e' mk']|] eqn:E; [|done]. injection H as <- <- <-.
    exists [], []. simpl. rewrite Nat.add_0_r. repeat split; [done|]. intros; lia.
  - destruct sre_match as [[e' mk']|] eqn:E.
    + injection H as <- <- <-. exists [], (c :: s). simpl. rewrite Nat.add_0_r.
      repeat split; [done|]. intros; lia.
    + apply IH in H as (pre & rest & -> & -> & Hm & Hfail).
      exists (c :: pre), rest. simpl.
      replace (pos + S (length pre)) with (S pos + length pre) by lia.
      repeat split; [done|]. intros [|c1 pre1] rest1 Heq Hlt; simpl in *.
      * subst rest1. by rewrite Nat.add_0_r.
      * injection Heq as <- Heq.
        replace (pos + S (length pre1)) with (S pos + length pre1) by lia.
        apply Hfail; [done|lia].
Qed.

Lemma search_from_None p : forall s pos,
  search_from p s pos = None ->
  forall pre rest, s = pre ++ rest ->
    sre_match (pat_code p) rest (pos + length pre)
      (replicate (2 * pat_groups p) None) = None.
Proof.
  induction s as [|c s IH]; intros pos H pre rest Heq; simpl in H.
  - destruct sre_match eqn:E; [by destruct p0 as [[]]|].
    symmetry in Heq. apply app_eq_nil in Heq as [-> ->]. simpl. by rewrite Nat.add_0_r.
  - destruct sre_match as [[e' mk']|] eqn:E; [done|].
    destruct pre as [|c1 pre]; simpl in *.
    + subst rest. by rewrite Nat.add_0_r.
    + injection Heq as <- Heq.
      replace (pos + S (length pre)) with (S pos + length pre) by lia.
      by apply IH.
Qed.

Lemma search_from_none p : forall s pos,
  (forall pre rest, s = pre ++ rest ->
     sre_match (pat_code p) rest (pos + length pre)
       (replicate (2 * pat_groups p) None) = None) ->
  search_from p s pos = None.
Proof.
  intros s pos H. destruct (search_from p s pos) as [[[b e] mk]|] eqn:E; [|done].
  apply search_from_Some in E as (pre & rest & Heq & -> & Hm & _).
  rewrite (H pre rest Heq) in Hm. done.
Qed.

(** Where the matcher succeeds on the pattern, a declaration stands. *)
Lemma pattern_match_decl rest pos e mk :
  sre_match (pat_code pattern) rest pos
    (replicate (2 * pat_groups pattern) None) = Some (e, mk) ->
  exists g1 g2 g3 post,
    rest = g1 ++ g2 ++ g3 ++ post /\ build_decl g1 g2 g3 /\
    e = pos + length g1 + length g2 + length g3 /\
    mk = group_marks pos g1 g2 g3.
Proof.
  intros (w & post & -> & -> & Hd)%sre_match_sound.
  apply den_pattern_decl in Hd as (g1 & g2 & g3 & -> & Hdecl & ->).
  exists g1, g2, g3, post. rewrite <- !(assoc_L (++)), !length_app.
  repeat split; [done|lia].
Qed.

(** Where a declaration stands, the matcher succeeds with its groups. *)
Lemma decl_pattern_match g1 g2 g3 post pos :
  build_decl g1 g2 g3 ->
  sre_match (pat_code pattern) (g1 ++ g2 ++ g3 ++ post) pos
    (replicate (2 * pat_groups pattern) None)
  = Some (pos + length g1 + length g2 + length g3, group_marks pos g1 g2 g3).
Proof.
  intros Hdecl. pose proof (den_decl_pattern pos _ _ _ Hdecl) as Hd.
  apply (sre_match_den _ _ _ _ _ post pattern_unambiguous) in Hd.
  rewrite <- !(assoc_L (++)) in Hd. rewrite Hd, !length_app.
  do 2 f_equal. lia.
Qed.

(** [pattern.search] returns the first declaration of the text. *)
Theorem search_first text pre g1 g2 g3 post :
  first_occurrence text pre g1 g2 g3 post ->
  search pattern text = Some (match_of text pre g1 g2 g3).
Proof.
  intros [[Heq Hdecl] Hfirst]. unfold search.
  rewrite (search_from_found pattern pre text 0 (g1 ++ g2 ++ g3 ++ post)
             (length pre + length g1 + length g2 + length g3)
             (group_marks (length pre) g1 g2 g3)); [done|done|..].
  - by apply decl_pattern_match.
  - intros pre1 rest1 Heq1 Hlt.
    destruct sre_match as [[e mk]|] eqn:E; [|done].
    apply pattern_match_decl in E as (h1 & h2 & h3 & post1 & -> & Hd1 & _).
    specialize (Hfirst pre1 h1 h2 h3 post1 (conj Heq1 Hd1)). lia.
Qed.

(** [pattern.search] returns [None] on a text without declaration. *)
Theorem search_none text :
  no_occurrence text -> search pattern text = None.
Proof.
  intros Hno. unfold search. rewrite search_from_none; [done|].
  intros pre rest Heq. destruct sre_match as [[e mk]|] eqn:E; [|done].
  apply pattern_match_decl in E as (h1 & h2 & h3 & post1 & -> & Hd1 & _).
  by destruct (Hno pre h1 h2 h3 post1).
Qed.

(** What [pattern.search] returns is the first declaration. *)
Theorem search_Some_inv text m :
  search pattern text = Some m ->
  exists pre g1 g2 g3 post,
    first_occurrence text pre g1 g2 g3 post /\ m = match_of text pre g1 g2 g3.
Proof.
  unfold search. destruct search_from as [[[b e] mk]|] eqn:E; [|done].
  intros [= <-].
  apply search_from_Some in E as (pre & rest & Heq & -> & Hm & Hfail).
  apply pattern_match_decl in Hm as (g1 & g2 & g3 & post & -> & Hdecl & -> & ->).
  exists pre, g1, g2, g3, post. split; [|done].
  split; [done|]. intros pre' g1' g2' g3' post' [Heq' Hdecl'].
  destruct (decide (length pre <= length pre')) as [|Hlt]; [done|].
  pose proof (decl_pattern_match g1' g2' g3' post' (0 + length pre') Hdecl') as Hm.
  rewrite (Hfail pre' _ Heq') in Hm; [done|lia].
Qed.

Theorem search_None_inv text :
  search pattern text = None -> no_occurrence text.
Proof.
  unfold search. destruct search_from as [[[b e] mk]|] eqn:E; [done|].
  intros _ pre g1 g2 g3 post [Heq Hdecl].
  pose proof (search_from_None _ _ _ E pre _ Heq) as Hn.
  by rewrite decl_pattern_match in Hn.
Qed.


End Search.

(** ** Groups and substitution *)

Section Groups.
Import Sre.

Lemma slice_mid (a b c : str) :
  slice (a ++ b ++ c) (length a) (length a + length b) = b.
Proof.
  unfold slice. rewrite drop_app_length.
  replace (length a + length b - length a) with (length b) by lia.
  apply take_app_length.
Qed.

Lemma group_1 pre g1 g2 g3 post :
  group (match_of (pre ++ g1 ++ g2 ++ g3 ++ post) pre g1 g2 g3) 1 = g1.
Proof. apply slice_mid. Qed.

Lemma group_2 pre g1 g2 g3 post :
  group (match_of (pre ++ g1 ++ g2 ++ g3 ++ post) pre g1 g2 g3) 2 = g2.
Proof.
  cbn. rewrite <- (length_app pre g1), (assoc_L (++) pre g1).
  apply (slice_mid (pre ++ g1) g2 (g3 ++ post)).
Qed.

Lemma group_3 pre g1 g2 g3 post :
  group (match_of (pre ++ g1 ++ g2 ++ g3 ++ post) pre g1 g2 g3) 3 = g3.
Proof.
  cbn. rewrite <- (length_app pre g1), <- (length_app (pre ++ g1) g2).
  rewrite (assoc_L (++) pre g1), (assoc_L (++) (pre ++ g1) g2).
  apply (slice_mid ((pre ++ g1) ++ g2) g3 post).
Qed.

(** With a limit of one, [pattern.sub] rewrites the first declaration and
    nothing else. *)
Lemma sub_first repl pre g1 g2 g3 post :
  first_occurrence (pre ++ g1 ++ g2 ++ g3 ++ post) pre g1 g2 g3 post ->
  sub pattern repl (pre ++ g1 ++ g2 ++ g3 ++ post) 1
  = pre ++ repl (match_of (pre ++ g1 ++ g2 ++ g3 ++ post) pre g1 g2 g3) ++ post.
Proof.
  intros Hfirst. simpl. rewrite (search_first _ _ _ _ _ _ Hfirst). cbn [m_start m_end match_of].
  rewrite take_app_length. do 2 f_equal.
  rewrite <- (length_app pre g1), <- (length_app (pre ++ g1) g2),
    <- (length_app ((pre ++ g1) ++ g2) g3).
  rewrite !(assoc_L (++)). apply drop_app_length.
Qed.

Lemma sub_none repl text count :
  no_occurrence text -> sub pattern repl text count = text.
Proof. intros H. destruct count; simpl; [done|]. by rewrite search_none. Qed.

End Groups.

(** [int] accepts every non-empty string of decimal digits. *)
Lemma int_digits_total ds : forall acc,
  decimal_digits ds -> exists n, int_digits acc ds = Some n.
Proof.
  induction ds as [|c ds IH]; intros acc Hd; simpl; [by eexists|].
  apply Forall_cons in Hd as [Hc Hd]. unfold Unicode.isdecimal in Hc.
  destruct (Unicode.decimal c); [|done]. by apply IH.
Qed.

Lemma int_total ds :
  decimal_digits ds -> ds <> [] -> exists n, int ds = Some n.
Proof.
  intros Hd Hne. destruct ds as [|c ds]; [done|]. by apply int_digits_total.
Qed.

(** ** The script, case by case *)

Lemma version_path_eq : Pathlib.to_str VERSION_H = version_path.
Proof. reflexivity. Qed.

Lemma backup_path_eq :
  Pathlib.to_str
    (Pathlib.with_name VERSION_H (Pathlib.name VERSION_H ++ BACKUP_SUFFIX)%string)
  = backup_path.
Proof. reflexivity. Qed.

Lemma temp_path_eq :
  Pathlib.to_str
    (Pathlib.with_suffix VERSION_H (Pathlib.suffix VERSION_H ++ ".tmp")%string)
  = temp_path.
Proof. reflexivity. Qed.

Lemma write_text_ok p text w :
  files w !! Pathlib.to_str p <> Some Dir ->
  write_text p text w
  = (Return tt, {| files := <[Pathlib.to_str p := File text]> (files w);
                   stdout := stdout w |}).
Proof. unfold write_text. intros H. by destruct (files w !! _) as [[]|]. Qed.

(** No version file: a warning, and nothing else. *)
Lemma increment_build_missing w :
  files w !! version_path = None ->
  increment_build w
  = (Return tt, {| files := files w; stdout := stdout w ++ [missing_file_warning] |}).
Proof.
  intros H. unfold increment_build, bind, path_exists.
  rewrite version_path_eq, H. done.
Qed.

(** A version file without the pattern: a warning, and nothing else. *)
Lemma increment_build_no_match w text :
  files w !! version_path = Some (File text) ->
  Sre.search pattern text = None ->
  increment_build w
  = (Return tt,
     {| files := files w; stdout := stdout w ++ [missing_pattern_warning] |}).
Proof.
  intros H Hs. unfold increment_build, bind, path_exists, read_text.
  rewrite version_path_eq, H. rewrite bool_decide_eq_true_2 by eauto.
  cbn [negb]. rewrite H. by rewrite Hs.
Qed.

Lemma increment_build_match w text m old :
  files w !! version_path = Some (File text) ->
  Sre.search pattern text = Some m ->
  int (Sre.group m 2) = Some old ->
  files w !! backup_path <> Some Dir ->
  files w !! temp_path <> Some Dir ->
  increment_build w
  = (Return tt,
     updated w text
       (Sre.sub pattern
          (fun m => Sre.group m 1 ++ str_of_int (old + 1) ++ Sre.group m 3) text 1)
       old).
Proof.
  intros H Hs Hi Hb Ht. unfold increment_build, bind, path_exists, read_text.
  rewrite version_path_eq, H. rewrite bool_decide_eq_true_2 by eauto.
  cbn [negb]. rewrite H, Hs, Hi.
  rewrite write_text_ok by (by rewrite backup_path_eq).
  rewrite write_text_ok
    by (rewrite temp_path_eq, backup_path_eq; cbn [files]; by rewrite lookup_insert_ne).
  unfold replace. rewrite temp_path_eq, backup_path_eq, version_path_eq. cbn [files stdout].
  rewrite lookup_insert_eq, !lookup_insert_ne, H by done.
  done.
Qed.

(** ** Declarations do not overlap *)

Lemma whitespace_not_a w : whitespace w -> Forall (fun c => c <> 97%N) w.
Proof.
  intros H. eapply Forall_impl; [exact H|]. intros c Hc ->. by vm_compute in Hc.
Qed.

Lemma decimal_not_a w : decimal_digits w -> Forall (fun c => c <> 97%N) w.
Proof.
  intros H. eapply Forall_impl; [exact H|]. intros c Hc ->. by vm_compute in Hc.
Qed.

(** A declaration starts with [sta], has no other [a], and ends with [;]. *)
Lemma decl_shape g1 g2 g3 :
  build_decl g1 g2 g3 ->
  exists m3 m0,
    g1 ++ g2 ++ g3 = 115%N :: 116%N :: 97%N :: m3 /\
    Forall (fun c => c <> 97%N) m3 /\
    g1 ++ g2 ++ g3 = m0 ++ [59%N].
Proof.
  intros [w1 w2 w3 w4 w5 ds w6 H1 _ H2 _ H3 _ H4 H5 Hd _ H6].
  exists (u "tic" ++ w1 ++ u "constexpr" ++ w2 ++ u "uint16_t" ++ w3
            ++ u "BUILD" ++ w4 ++ u "=" ++ w5 ++ ds ++ w6 ++ u ";"),
         (u "static" ++ w1 ++ u "constexpr" ++ w2 ++ u "uint16_t" ++ w3
            ++ u "BUILD" ++ w4 ++ u "=" ++ w5 ++ ds ++ w6).
  split; [by rewrite <- !(assoc_L (++))|]. split.
  - rewrite !Forall_app.
    repeat split;
      first [ by apply whitespace_not_a | by apply decimal_not_a
            | by vm_compute; repeat constructor ].
  - by rewrite <- !(assoc_L (++)).
Qed.

(** Of two declarations of a text, the later starts where the earlier has
    ended, or further on. *)
Lemma occurs_disjoint text pre g1 g2 g3 post pre' h1 h2 h3 post' :
  occurs text pre g1 g2 g3 post ->
  occurs text pre' h1 h2 h3 post' ->
  length pre < length pre' ->
  exists mid, pre' = pre ++ g1 ++ g2 ++ g3 ++ mid.
Proof.
  intros [Heq Hd] [Heq' Hd'] Hlt.
  destruct (decl_shape _ _ _ Hd) as (m3 & m0 & Hsta & Hna & Hsemi).
  destruct (decl_shape _ _ _ Hd') as (m3' & _ & Hsta' & _ & _).
  assert (text = pre ++ (g1 ++ g2 ++ g3) ++ post) as HM
    by (by rewrite Heq, <- !(assoc_L (++))).
  assert (text = pre' ++ (h1 ++ h2 ++ h3) ++ post') as HM'
    by (by rewrite Heq', <- !(assoc_L (++))).
  clear Heq Heq'. rewrite HM in HM'. clear HM.
  remember (g1 ++ g2 ++ g3) as M eqn:EM. remember (h1 ++ h2 ++ h3) as M' eqn:EM'.
  rename HM' into HM.
  apply app_eq_inv in HM as [(x & Hpre & Hx)|(x & Hpre & Hx)].
  { subst pre. rewrite length_app in Hlt. lia. }
  subst pre'.
  apply app_eq_inv in Hx as [(y & HM & Hy)|(y & Hx & Hy)].
  2:{ exists y. by rewrite Hx, EM, <- !(assoc_L (++)). }
  destruct y as [|y1 y].
  { exists []. rewrite app_nil_r in HM. by rewrite <- HM, EM, app_nil_r. }
  exfalso. clear EM EM' Hd Hd'.
  destruct x as [|c x]; [rewrite length_app in Hlt; simpl in Hlt; lia|].
  rewrite Hsta' in Hy. clear Hsta' Hlt.
  destruct y as [|y2 [|y3 y]]; simpl in Hy.
  - (* one character left: it is the semicolon *)
    injection Hy as <- _. rewrite Hsemi in HM.
    by apply app_inj_tail in HM as [_ ?].
  - (* two characters left: the second is the semicolon *)
    injection Hy as <- <- _. rewrite Hsemi in HM.
    change ((c :: x) ++ [115%N; 116%N]) with ((c :: x) ++ [115%N] ++ [116%N]) in HM.
    rewrite (assoc_L (++)) in HM.
    by apply app_inj_tail in HM as [_ ?].
  - (* three or more: a second [a] would stand in the earlier declaration *)
    injection Hy as <- <- <- _. rewrite Hsta in HM.
    destruct x as [|x1 [|x2 x]]; simpl in HM; try by injection HM.
    injection HM as _ _ _ ->.
    apply Forall_app in Hna as [_ Hna].
    do 2 apply Forall_cons in Hna as [_ Hna].
    by apply Forall_cons in Hna as [? _].
Qed.

(** ** The world after a successful run *)

Lemma updated_version w text new_text old :
  files (updated w text new_text old) !! version_path = Some (File new_text).
Proof. apply lookup_insert_eq. Qed.

Lemma updated_backup w text new_text old :
  files (updated w text new_text old) !! backup_path = Some (File text).
Proof.
  unfold updated; cbn [files].
  rewrite lookup_insert_ne, lookup_delete_ne, lookup_insert_ne by done.
  apply lookup_insert_eq.
Qed.


Lemma updated_other w text new_text old p :
  p <> version_path -> p <> backup_path -> p <> temp_path ->
  files (updated w text new_text old) !! p = files w !! p.
Proof.
  intros. unfold updated; cbn [files].
  by rewrite lookup_insert_ne, lookup_delete_ne, !lookup_insert_ne by done.
Qed.

Lemma build_decl_digits g1 g2 g3 :
  build_decl g1 g2 g3 -> decimal_digits g2 /\ g2 <> [].
Proof. by intros []. Qed.


(** A run on a text with a declaration, when nothing stands in the way of
    the two files it writes. *)
Lemma increment_build_first w text pre g1 g2 g3 post :
  files w !! version_path = Some (File text) ->
  first_occurrence text pre g1 g2 g3 post ->
  files w !! backup_path <> Some Dir ->
  files w !! temp_path <> Some Dir ->
  exists n,
    int g2 = Some n /\
    increment_build w
    = (Return tt,
       updated w text (pre ++ g1 ++ str_of_int (n + 1) ++ g3 ++ post) n).
Proof.
  intros Hf Hfirst Hb Ht.
  pose proof Hfirst as [[Heq Hdecl] _].
  destruct (build_decl_digits _ _ _ Hdecl) as [Hd Hne].
  destruct (int_total g2 Hd Hne) as [n Hn]. exists n. split; [done|].
  subst text.
  rewrite (increment_build_match w _ _ n Hf (search_first _ _ _ _ _ _ Hfirst));
    [|by rewrite group_2|done|done].
  rewrite (sub_first _ _ _ _ _ _ Hfirst), group_1, group_3.
  by rewrite <- !(assoc_L (++)).
Qed.



(** The first declaration of a text, read off the result of the search. *)
Lemma first_occurrence_by_search text pre g1 g2 g3 post :
  text = pre ++ g1 ++ g2 ++ g3 ++ post ->
  Sre.search pattern text = Some (match_of text pre g1 g2 g3) ->
  first_occurrence text pre g1 g2 g3 post.
Proof.
  intros Heq Hs.
  apply search_Some_inv in Hs as (pre' & g1' & g2' & g3' & post' & Hfirst & Hm).
  assert (length pre = length pre' /\ length g1 = length g1' /\
          length g2 = length g2' /\ length g3 = length g3') as (L0 & L1 & L2 & L3).
  { unfold match_of, group_marks in Hm.
    injection Hm as H0 _ _ H1 _ H2 _ H3. lia. }
  pose proof Hfirst as [[Heq' Hdecl] Hmin].
  rewrite Heq in Heq'.
  apply app_inj_1 in Heq' as [<- Heq']; [|done].
  apply app_inj_1 in Heq' as [<- Heq']; [|done].
  apply app_inj_1 in Heq' as [<- Heq']; [|done].
  apply app_inj_1 in Heq' as [<- <-]; [|done].
  exact Hfirst.
Qed.


Lemma no_occurrence_by_search text :
  Sre.search pattern text = None -> no_occurrence text.
Proof. apply search_None_inv. Qed.


Lemma prefix_assignment_occurs pre p a post :
  recognized_prefix p -> build_assignment a ->
  exists g1 g2 g3, occurs ((pre ++ p) ++ a ++ post) pre g1 g2 g3 post.
Proof.
  intros (w1 & w2 & w3 & -> & H1 & N1 & H2 & N2 & H3 & N3)
         (w4 & w5 & ds & w6 & -> & H4 & H5 & Hd & Nd & H6).
  exists (u "static" ++ w1 ++ u "constexpr" ++ w2 ++ u "uint16_t" ++ w3
            ++ u "BUILD" ++ w4 ++ u "=" ++ w5), ds, (w6 ++ u ";").
  split; [by rewrite <- !(assoc_L (++))|by constructor].
Qed.


Lemma no_occurrence_no_recognized text :
  no_occurrence text -> no_recognized_assignment text.
Proof.
  intros Hno before a after -> Ha (pre & p & -> & Hp).
  destruct (prefix_assignment_occurs pre p a after Hp Ha) as (g1 & g2 & g3 & Hocc).
  by apply Hno in Hocc.
Qed.

(** ** The messages *)

Lemma missing_file_warning_names_path :
  contains missing_file_warning (u "src/version.h").
Proof.
  exists (u "[increment_build] warning: "), (u " not found, skipping build increment").
  reflexivity.
Qed.

Lemma missing_pattern_warning_names_path :
  contains missing_pattern_warning (u "src/version.h").
Proof.
  exists (u "[increment_build] warning: BUILD pattern not found in "), (u ", skipping").
  reflexivity.
Qed.

Lemma updated_message_shows_values old new :
  contains (updated_message old new) (str_of_int old ++ u " -> " ++ str_of_int new).
Proof.
  exists (u "[increment_build] updated BUILD: "), (u " (src/version.h)").
  unfold updated_message. by rewrite <- !(assoc_L (++)).
Qed.


(** A text has a first declaration or none at all. *)
Lemma first_or_none text :
  (exists pre g1 g2 g3 post, first_occurrence text pre g1 g2 g3 post)
  \/ no_occurrence text.
Proof.
  destruct (Sre.search pattern text) as [m|] eqn:E.
  - left. apply search_Some_inv in E as (pre & g1 & g2 & g3 & post & H & _). eauto 10.
  - right. by apply search_None_inv.
Qed.

(** * The claims *)







(** C4.  When no file exists at [src/version.h], the run returns normally
    (it does not raise, and the embedding has no primitive that exits), it
    prints one warning that names the path, and it leaves the files as they
    were: no version file, backup or temporary file is created. *)
Theorem missing_file_warns_and_returns w :
  files w !! version_path = None ->
  exists w',
    increment_build w = (Return tt, w') /\
    files w' = files w /\
    stdout w' = stdout w ++ [missing_file_warning] /\
    contains missing_file_warning (u "warning") /\
    contains missing_file_warning (u "src/version.h").
Proof.
  intros Hf. eexists. split; [by apply increment_build_missing|].
  repeat split; [|apply missing_file_warning_names_path].
  by exists (u "[increment_build] "),
    (u ": src/version.h not found, skipping build increment").
Qed.

Lemma missing_file_warns_and_returns_witness :
  exists w',
    increment_build {| files := ∅; stdout := [] |} = (Return tt, w') /\
    files w' = ∅ /\
    stdout w' = [] ++ [missing_file_warning] /\
    contains missing_file_warning (u "warning") /\
    contains missing_file_warning (u "src/version.h").
Proof.
  apply (missing_file_warns_and_returns {| files := ∅; stdout := [] |}).
  reflexivity.
Defined.

(** C5.  When the version file exists and its text has no BUILD
    declaration, the run returns normally, prints one warning that names
    the file, and leaves every file as it was: the version file keeps its
    text, and neither a backup nor a temporary file is written. *)
Theorem missing_pattern_warns_and_returns w text :
  files w !! version_path = Some (File text) ->
  no_occurrence text ->
  exists w',
    increment_build w = (Return tt, w') /\
    files w' = files w /\
    stdout w' = stdout w ++ [missing_pattern_warning] /\
    contains missing_pattern_warning (u "warning") /\
    contains missing_pattern_warning (u "src/version.h").
Proof.
  intros Hf Hno. eexists.
  split; [by apply (increment_build_no_match w text Hf), search_none|].
  repeat split; [|apply missing_pattern_warning_names_path].
  by exists (u "[increment_build] "),
    (u ": BUILD pattern not found in src/version.h, skipping").
Qed.

Lemma missing_pattern_warns_and_returns_witness :
  exists w',
    increment_build (world_of (u "#pragma once")) = (Return tt, w') /\
    files w' = files (world_of (u "#pragma once")) /\
    stdout w' = [] ++ [missing_pattern_warning] /\
    contains missing_pattern_warning (u "warning") /\
    contains missing_pattern_warning (u "src/version.h").
Proof.
  apply (missing_pattern_warns_and_returns
           (world_of (u "#pragma once")) (u "#pragma once")).
  - reflexivity.
  - apply no_occurrence_by_search. vm_compute; reflexivity.
Defined.









(** C8.  When the version file holds the header of the example, with
    BUILD = 41 and a line feed, one run returns, the version file holds the
    header with BUILD = 42, the backup holds the header with BUILD = 41,
    and the line printed contains [41 -> 42]. *)
Theorem example_41_to_42 w :
  files w !! version_path = Some (File (header "41")) ->
  files w !! backup_path <> Some Dir ->
  files w !! temp_path <> Some Dir ->
  exists w' line,
    increment_build w = (Return tt, w') /\
    files w' !! version_path = Some (File (header "42")) /\
    files w' !! backup_path = Some (File (header "41")) /\
    stdout w' = stdout w ++ [line] /\
    contains line (u "41 -> 42").
Proof.
  intros Hf Hb Ht.
  assert (first_occurrence (header "41") [] decl_prefix (u "41") (u ";") [LF])
    as Hfirst by (apply first_occurrence_by_search; vm_compute; reflexivity).
  destruct (increment_build_first w _ _ _ _ _ _ Hf Hfirst Hb Ht) as (n & Hn & Hrun).
  assert (n = 41%N) as -> by (vm_compute in Hn; congruence).
  eexists. exists (updated_message 41 (41 + 1)).
  split; [exact Hrun|]. split; [apply updated_version|].
  split; [apply updated_backup|]. split; [done|].
  apply (updated_message_shows_values 41 42).
Qed.

Lemma example_41_to_42_witness :
  exists w' line,
    increment_build (world_of (header "41")) = (Return tt, w') /\
    files w' !! version_path = Some (File (header "42")) /\
    files w' !! backup_path = Some (File (header "41")) /\
    stdout w' = [] ++ [line] /\
    contains line (u "41 -> 42").
Proof.
  apply (example_41_to_42 (world_of (header "41"))).
  - reflexivity.
  - vm_compute; discriminate.
  - vm_compute; discriminate.
Defined.





(** The two texts the claim names take the pattern-missing path, and so
    does a prefix whose tokens are not separated. *)
Example other_prefix_examples :
  no_recognized_assignment (u "const uint16_t BUILD = 5;") /\
  no_recognized_assignment (u "#define BUILD 5") /\
  no_recognized_assignment (u "staticconstexpr uint16_t BUILD = 5;").
Proof.
  repeat split; apply no_occurrence_no_recognized, no_occurrence_by_search;
    vm_compute; reflexivity.
Qed.

(** * Further properties of the script *)

(** ** The runs that raise *)

Lemma increment_build_version_dir w :
  files w !! version_path = Some Dir ->
  increment_build w = (Raise (IsADirectoryError version_path), w).
Proof.
  intros Hf. unfold increment_build, bind, path_exists, read_text.
  rewrite version_path_eq, Hf. rewrite bool_decide_eq_true_2 by eauto.
  cbn [negb]. by rewrite Hf.
Qed.

Lemma first_occurrence_int text pre g1 g2 g3 post :
  first_occurrence text pre g1 g2 g3 post ->
  exists n,
    int g2 = Some n /\
    Sre.search pattern text = Some (match_of text pre g1 g2 g3) /\
    int (Sre.group (match_of text pre g1 g2 g3) 2) = Some n.
Proof.
  intros Hfirst. pose proof Hfirst as [[Heq Hdecl] _].
  destruct (build_decl_digits _ _ _ Hdecl) as [Hd Hne].
  destruct (int_total g2 Hd Hne) as [n Hn]. exists n.
  split; [done|]. split; [by apply search_first with post|].
  subst text. by rewrite group_2.
Qed.

Lemma increment_build_backup_dir w text pre g1 g2 g3 post :
  files w !! version_path = Some (File text) ->
  first_occurrence text pre g1 g2 g3 post ->
  files w !! backup_path = Some Dir ->
  increment_build w = (Raise (IsADirectoryError backup_path), w).
Proof.
  intros Hf Hfirst Hb.
  destruct (first_occurrence_int _ _ _ _ _ _ Hfirst) as (n & _ & Hs & Hi).
  unfold increment_build, bind, path_exists, read_text.
  rewrite version_path_eq, Hf. rewrite bool_decide_eq_true_2 by eauto.
  cbn [negb]. rewrite Hf, Hs, Hi.
  unfold write_text at 1. by rewrite backup_path_eq, Hb.
Qed.

Lemma increment_build_temp_dir w text pre g1 g2 g3 post :
  files w !! version_path = Some (File text) ->
  first_occurrence text pre g1 g2 g3 post ->
  files w !! backup_path <> Some Dir ->
  files w !! temp_path = Some Dir ->
  increment_build w
  = (Raise (IsADirectoryError temp_path),
     {| files := <[backup_path := File text]> (files w); stdout := stdout w |}).
Proof.
  intros Hf Hfirst Hb Ht.
  destruct (first_occurrence_int _ _ _ _ _ _ Hfirst) as (n & _ & Hs & Hi).
  unfold increment_build, bind, path_exists, read_text.
  rewrite version_path_eq, Hf. rewrite bool_decide_eq_true_2 by eauto.
  cbn [negb]. rewrite Hf, Hs, Hi.
  rewrite write_text_ok by (by rewrite backup_path_eq).
  unfold write_text. rewrite temp_path_eq, backup_path_eq. cbn [files].
  by rewrite lookup_insert_ne, Ht by done.
Qed.

Lemma is_dir_dec (o : option node) : {o = Some Dir} + {o <> Some Dir}.
Proof. destruct o as [[|]|]; (by left) || (by right). Qed.

(** Every run goes one of the six ways. *)
Lemma increment_build_outcome w :
  run_outcome w (increment_build w).1 (increment_build w).2.
Proof.
  destruct (files w !! version_path) as [[text|]|] eqn:Hf.
  - destruct (first_or_none text) as [(pre & g1 & g2 & g3 & post & Hfirst)|Hno].
    + destruct (is_dir_dec (files w !! backup_path)) as [Hb|Hb].
      { rewrite (increment_build_backup_dir w text _ _ _ _ _ Hf Hfirst Hb).
        by eapply run_backup_is_directory. }
      destruct (is_dir_dec (files w !! temp_path)) as [Ht|Ht].
      { rewrite (increment_build_temp_dir w text _ _ _ _ _ Hf Hfirst Hb Ht).
        by eapply run_temp_is_directory. }
      destruct (increment_build_first w text _ _ _ _ _ Hf Hfirst Hb Ht)
        as (n & Hn & ->).
      by eapply run_updated.
    + rewrite (increment_build_no_match w text Hf (search_none _ Hno)).
      by eapply run_missing_pattern.
  - rewrite (increment_build_version_dir w Hf). by constructor.
  - rewrite (increment_build_missing w Hf). by constructor.
Qed.



(** X2.  When [src/version.h] names a directory, the existence test passes
    and reading raises [IsADirectoryError]: nothing is printed and nothing
    is written. *)
Theorem version_directory_raises w :
  files w !! version_path = Some Dir ->
  increment_build w = (Raise (IsADirectoryError "src/version.h"), w).
Proof. apply increment_build_version_dir. Qed.

Lemma version_directory_raises_witness :
  increment_build {| files := {[ version_path := Dir ]}; stdout := [] |}
  = (Raise (IsADirectoryError "src/version.h"),
     {| files := {[ version_path := Dir ]}; stdout := [] |}).
Proof.
  apply (version_directory_raises {| files := {[ version_path := Dir ]}; stdout := [] |}).
  reflexivity.
Defined.








(** X7.  Whatever the outcome, a run touches no path other than the version
    file, the backup and the temporary file. *)
Theorem other_paths_untouched w p :
  p <> version_path -> p <> backup_path -> p <> temp_path ->
  files (increment_build w).2 !! p = files w !! p.
Proof.
  intros Hv Hb Ht. destruct (increment_build_outcome w); try done.
  - cbn [files]. by rewrite lookup_insert_ne.
  - by apply updated_other.
Qed.

Lemma other_paths_untouched_witness :
  files (increment_build
           (world_with_node (header "41") "src/main.cpp" (File (u "int main;")))).2
    !! "src/main.cpp"
  = files (world_with_node (header "41") "src/main.cpp" (File (u "int main;")))
      !! "src/main.cpp".
Proof.
  apply (other_paths_untouched
           (world_with_node (header "41") "src/main.cpp" (File (u "int main;")))
           "src/main.cpp"); discriminate.
Defined.




(** ** Successive builds *)





(** ** The search and the pattern *)

(** X11.  [pattern.search] returns [None] exactly on the texts without a
    BUILD declaration.  Otherwise its match object is that of the first
    declaration in document order: the match starts where the declaration
    starts, groups 1, 2 and 3 are its prefix, its digits and its
    terminator, and the three groups together are the whole match. *)
Theorem search_finds_first_declaration text :
  match Sre.search pattern text with
  | None => no_occurrence text
  | Some m =>
      exists pre g1 g2 g3 post,
        first_occurrence text pre g1 g2 g3 post /\
        Sre.m_start m = length pre /\
        Sre.group m 1 = g1 /\ Sre.group m 2 = g2 /\ Sre.group m 3 = g3 /\
        Sre.group m 0 = g1 ++ g2 ++ g3
  end.
Proof.
  destruct (Sre.search pattern text) as [m|] eqn:E; [|by apply search_None_inv].
  apply search_Some_inv in E as (pre & g1 & g2 & g3 & post & Hfirst & ->).
  exists pre, g1, g2, g3, post. split; [done|]. split; [done|].
  destruct Hfirst as [[-> _] _].
  rewrite group_1, group_2, group_3. repeat split.
  cbn [Sre.group match_of Sre.m_string Sre.m_start Sre.m_end].
  replace (length pre + length g1 + length g2 + length g3)
    with (length pre + length (g1 ++ g2 ++ g3)) by (rewrite !length_app; lia).
  rewrite <- (slice_mid pre (g1 ++ g2 ++ g3) post) at 2.
  by rewrite <- !(assoc_L (++)).
Qed.

(** X12.  Two BUILD declarations of a text never overlap: the one that
    starts later starts at the end of the earlier one or behind it. *)
Theorem declarations_do_not_overlap text pre g1 g2 g3 post pre' h1 h2 h3 post' :
  occurs text pre g1 g2 g3 post ->
  occurs text pre' h1 h2 h3 post' ->
  length pre < length pre' ->
  length pre + length (g1 ++ g2 ++ g3) <= length pre'.
Proof.
  intros H1 H2 Hlt.
  destruct (occurs_disjoint _ _ _ _ _ _ _ _ _ _ _ H1 H2 Hlt) as [mid ->].
  rewrite !length_app. lia.
Qed.

Lemma declarations_do_not_overlap_witness :
  length ([] : str) + length (decl_prefix ++ u "41" ++ u ";")
  <= length (header "41").
Proof.
  apply (declarations_do_not_overlap
           (header "41" ++ header "7")
           [] decl_prefix (u "41") (u ";") ([LF] ++ header "7")
           (header "41") decl_prefix (u "7") (u ";") [LF]).
  - split; [vm_compute; reflexivity|].
    apply (first_occurrence_by_search (header "41") [] decl_prefix (u "41") (u ";") [LF]);
      vm_compute; reflexivity.
  - split; [vm_compute; reflexivity|].
    apply (first_occurrence_by_search (header "7") [] decl_prefix (u "7") (u ";") [LF]);
      vm_compute; reflexivity.
  - vm_compute; lia.
Defined.

(** ** The digits read and written *)






